(** * Token-bucket rate limiter (ratelimiter.go, token_bucket.go)

    A shallow embedding of the Go package [ratelimiter]:
    - [float64] values are exact rationals extended with the IEEE special
      values +Inf, -Inf and NaN, so that division by a zero period and the
      absorbing behaviour of NaN are those of Go.  Rounding is not
      modelled: the token count is the real-valued quantity of the design,
      whose numeric policy accepts the drift of float64.  Zero has no
      sign;
    - [time.Time] is the monotonic clock reading in nanoseconds and
      [time.Duration] an int64 count of nanoseconds, with the saturation
      of [Time.Sub] written out;
    - the mutex is the boolean [mtx] of the bucket.  A sequential call is a
      state-passing function of the bucket found when the lock is
      acquired; concurrent callers are an interleaving of atomic steps
      driven by a schedule, where [Lock] can only be taken on a free
      mutex;
    - the blocking points of [Wait] (the clock reading of every iteration
      and the branch taken by its [select]) are supplied by a script. *)

From Stdlib Require Import ZArith QArith Qround Lia Lqa Bool.
From stdpp Require Import base list.

(** ** float64 *)

Module F64.

Local Open Scope Q_scope.

Inductive float64 : Type :=
| Fin (q : Q)
| PInf
| NInf
| NaN.

Definition of_int (n : Z) : float64 := Fin (inject_Z n).

Definition Qeqb (a b : Q) : bool := Qeq_bool a b.
Definition Qltb (a b : Q) : bool := negb (Qle_bool b a).

Definition neg (x : float64) : float64 :=
  match x with
  | Fin a => Fin (- a)
  | PInf => NInf
  | NInf => PInf
  | NaN => NaN
  end.

Definition add (x y : float64) : float64 :=
  match x, y with
  | NaN, _ | _, NaN => NaN
  | PInf, NInf | NInf, PInf => NaN
  | PInf, _ | _, PInf => PInf
  | NInf, _ | _, NInf => NInf
  | Fin a, Fin b => Fin (a + b)
  end.

Definition sub (x y : float64) : float64 := add x (neg y).

(** The sign of an infinity scaled by a finite factor; a zero factor gives
    NaN. *)
Definition scale_inf (pos : bool) (a : Q) : float64 :=
  if Qeqb a 0 then NaN
  else if Bool.eqb pos (Qltb 0 a) then PInf else NInf.

Definition mul (x y : float64) : float64 :=
  match x, y with
  | NaN, _ | _, NaN => NaN
  | Fin a, Fin b => Fin (a * b)
  | PInf, Fin a | Fin a, PInf => scale_inf true a
  | NInf, Fin a | Fin a, NInf => scale_inf false a
  | PInf, PInf | NInf, NInf => PInf
  | PInf, NInf | NInf, PInf => NInf
  end.

Definition div (x y : float64) : float64 :=
  match x, y with
  | NaN, _ | _, NaN => NaN
  | Fin a, Fin b =>
      if Qeqb b 0 then
        (if Qeqb a 0 then NaN else if Qltb 0 a then PInf else NInf)
      else Fin (a / b)
  | Fin _, (PInf | NInf) => Fin 0
  | PInf, Fin b => if Qltb b 0 then NInf else PInf
  | NInf, Fin b => if Qltb b 0 then PInf else NInf
  | (PInf | NInf), (PInf | NInf) => NaN
  end.

(** Go's [x > y] and [x >= y]: false as soon as one side is NaN. *)
Definition gt (x y : float64) : bool :=
  match x, y with
  | NaN, _ | _, NaN => false
  | Fin a, Fin b => Qltb b a
  | PInf, (Fin _ | NInf) => true
  | Fin _, NInf => true
  | _, _ => false
  end.

Definition ge (x y : float64) : bool :=
  match x, y with
  | NaN, _ | _, NaN => false
  | Fin a, Fin b => Qle_bool b a
  | PInf, _ => true
  | _, NInf => true
  | _, _ => false
  end.

(** Same value: rationals up to [==], special values up to identity. *)
Definition same (x y : float64) : Prop :=
  match x, y with
  | Fin a, Fin b => a == b
  | PInf, PInf | NInf, NInf | NaN, NaN => True
  | _, _ => False
  end.

Definition is_finite (x : float64) : bool :=
  match x with Fin _ => true | _ => false end.

Definition is_inf (x : float64) : bool :=
  match x with PInf | NInf => true | _ => false end.

(** The minimum the design writes [min(a, b)]: the smaller of the two,
    NaN when either is NaN (as Go's [math.Min]). *)
Definition fmin (x y : float64) : float64 :=
  match x, y with
  | NaN, _ | _, NaN => NaN
  | NInf, _ | _, NInf => NInf
  | PInf, z | z, PInf => z
  | Fin a, Fin b => if Qle_bool a b then Fin a else Fin b
  end.

(** Conversion [int64(f)] of Go: truncation toward zero; the result is
    implementation-defined ([None]) when the value does not fit. *)
Definition Qtrunc (q : Q) : Z := if Qle_bool 0 q then Qfloor q else Qceiling q.

Definition in_int64 (z : Z) : bool :=
  ((- 2 ^ 63 <=? z) && (z <=? 2 ^ 63 - 1))%Z.

Definition to_int64 (x : float64) : option Z :=
  match x with
  | Fin q => let z := Qtrunc q in if in_int64 z then Some z else None
  | _ => None
  end.

End F64.

Export F64.

Open Scope Z_scope.

(** ** package time *)

Definition Time : Type := Z.
Definition Duration : Type := Z.

Definition Nanosecond : Duration := 1%Z.
Definition Millisecond : Duration := 1000000%Z.
Definition Second : Duration := 1000000000%Z.

Definition maxDuration : Duration := (2 ^ 63 - 1)%Z.
Definition minDuration : Duration := (- 2 ^ 63)%Z.

(** [t.Sub(u)] on monotonic readings: the difference, saturated to the
    range of [Duration]. *)
Definition Sub (t u : Time) : Duration :=
  let d := (t - u)%Z in
  if (maxDuration <? d)%Z then maxDuration
  else if (d <? minDuration)%Z then minDuration
  else d.

(** [d.Seconds()]: whole seconds plus the nanosecond remainder over 1e9;
    Go's [/] and [%] on integers truncate toward zero. *)
Definition Seconds (d : Duration) : float64 :=
  let sec := Z.quot d Second in
  let nsec := Z.rem d Second in
  add (of_int sec) (div (of_int nsec) (Fin (1000000000 # 1))).

(** [time.Duration(f)]. *)
Definition Duration_of_float64 (f : float64) : option Duration := to_int64 f.

(** ** TokenBucket *)

Record TokenBucket : Type := mkTokenBucket {
  mtx : bool;             (* the lock: true while held *)
  rate : float64;         (* tokens added per second *)
  max_tokens : float64;   (* maximum token capacity *)
  tokens : float64;       (* current count of available tokens *)
  lastUpdated : Time      (* last time tokens were updated *)
}.

Definition set_mtx (b : bool) (tb : TokenBucket) : TokenBucket :=
  mkTokenBucket b (rate tb) (max_tokens tb) (tokens tb) (lastUpdated tb).

Definition set_tokens (t : float64) (tb : TokenBucket) : TokenBucket :=
  mkTokenBucket (mtx tb) (rate tb) (max_tokens tb) t (lastUpdated tb).

Definition set_lastUpdated (n : Time) (tb : TokenBucket) : TokenBucket :=
  mkTokenBucket (mtx tb) (rate tb) (max_tokens tb) (tokens tb) n.

Definition Lock (tb : TokenBucket) : TokenBucket := set_mtx true tb.
Definition Unlock (tb : TokenBucket) : TokenBucket := set_mtx false tb.

(** [NewTokenBucket(maxOps, per, maxBucketSize)]; [now] is the value of
    [time.Now()] read by the constructor. *)
Definition NewTokenBucket (now : Time) (maxOps : Z) (per : Duration)
    (maxBucketSize : Z) : TokenBucket :=
  let rate := div (of_int maxOps) (Seconds per) in
  {| mtx := false;
     rate := rate;
     max_tokens := of_int maxBucketSize;
     tokens := of_int maxBucketSize;
     lastUpdated := now |}.

(** [tb.refillBucket()], with [now] the clock reading it takes. *)
Definition elapsed (now : Time) (tb : TokenBucket) : float64 :=
  Seconds (Sub now (lastUpdated tb)).

Definition refillBucket (now : Time) (tb : TokenBucket) : TokenBucket :=
  let elapsed := Seconds (Sub now (lastUpdated tb)) in
  let tb := set_tokens (add (tokens tb) (mul elapsed (rate tb))) tb in
  let tb := if gt (tokens tb) (max_tokens tb)
            then set_tokens (max_tokens tb) tb else tb in
  set_lastUpdated now tb.

Definition one : float64 := Fin 1.

(** [tb.tokens--] *)
Definition take_token (tb : TokenBucket) : TokenBucket :=
  set_tokens (sub (tokens tb) one) tb.

(** [tb.Allow()]: the lock is taken first and released by the deferred
    [Unlock] on both return paths. *)
Definition Allow (now : Time) (tb : TokenBucket) : bool * TokenBucket :=
  let tb := Lock tb in
  let tb := refillBucket now tb in
  if ge (tokens tb) one then
    let tb := take_token tb in
    (true, Unlock tb)
  else (false, Unlock tb).

(** *** Wait *)

Inductive ctx_error : Type := Canceled | DeadlineExceeded.

(** The branch taken by the [select] of one iteration. *)
Inductive select_case : Type :=
| TimeAfter                  (* <-time.After(waitDuration) *)
| CtxDone (err : ctx_error). (* <-ctx.Done(), with the value of ctx.Err() *)

(** One pass through the locked part of the loop body. *)
Inductive attempt : Type :=
| Acquired (tb : TokenBucket)
| Suspend (tokensNeeded : float64) (waitDuration : option Duration)
          (tb : TokenBucket).

Definition Wait_attempt (now : Time) (tb : TokenBucket) : attempt :=
  let tb := Lock tb in
  let tb := refillBucket now tb in
  if ge (tokens tb) one then
    let tb := take_token tb in
    Acquired (Unlock tb)
  else
    let tokensNeeded := sub one (tokens tb) in
    let waitDuration :=
      Duration_of_float64
        (mul (div tokensNeeded (rate tb)) (of_int Second)) in
    Suspend tokensNeeded waitDuration (Unlock tb).

Inductive wait_result : Type :=
| Returned (err : option ctx_error)  (* [None] is Go's nil *)
| Blocked.                           (* the script ended inside the loop *)

(** [tb.Wait(ctx)] against a script giving, for each iteration, the clock
    reading of its refill and the branch its [select] takes. *)
Fixpoint Wait (script : list (Time * select_case)) (tb : TokenBucket)
    : wait_result * TokenBucket :=
  match script with
  | [] => (Blocked, tb)
  | (now, sel) :: script' =>
      match Wait_attempt now tb with
      | Acquired tb' => (Returned None, tb')
      | Suspend _ _ tb' =>
          match sel with
          | TimeAfter => Wait script' tb'
          | CtxDone err => (Returned (Some err), tb')
          end
      end
  end.

(** ** The RateLimiter interface *)

Class RateLimiter (L : Type) : Type := {
  rl_Allow : Time -> L -> bool * L;
  rl_Wait : list (Time * select_case) -> L -> wait_result * L
}.

#[export] Instance TokenBucket_RateLimiter : RateLimiter TokenBucket :=
  {| rl_Allow := Allow; rl_Wait := Wait |}.

(** [n] calls of [Allow], all at the clock reading [now]. *)
Fixpoint Allow_n (n : nat) (now : Time) (tb : TokenBucket)
    : list bool * TokenBucket :=
  match n with
  | O => ([], tb)
  | S n' =>
      let '(b, tb1) := Allow now tb in
      let '(bs, tb2) := Allow_n n' now tb1 in
      (b :: bs, tb2)
  end.

(** The bucket after the refill steps of a run of iterations, none of
    which takes a token. *)
Fixpoint refill_all (times : list Time) (tb : TokenBucket) : TokenBucket :=
  match times with
  | [] => tb
  | t :: times' => refill_all times' (Unlock (refillBucket t (Lock tb)))
  end.

(** No iteration at the given clock readings finds a whole token. *)
Fixpoint starved (times : list Time) (tb : TokenBucket) : bool :=
  match times with
  | [] => true
  | t :: times' =>
      let r := refillBucket t (Lock tb) in
      negb (ge (tokens r) one) && starved times' (Unlock r)
  end.

Definition timer_fired (p : Time * select_case) : bool :=
  match snd p with TimeAfter => true | CtxDone _ => false end.

(** ** Observable states *)

(** A clock that never goes back: every reading is at least the one
    before, starting from [t]. *)
Fixpoint nondecreasing (t : Time) (ts : list Time) : Prop :=
  match ts with
  | [] => True
  | u :: ts' => t <= u /\ nondecreasing u ts'
  end.

(** The bucket as one iteration of [Wait] leaves it. *)
Definition attempt_bucket (a : attempt) : TokenBucket :=
  match a with
  | Acquired tb => tb
  | Suspend _ _ tb => tb
  end.

(** The states an outside observer can see: a bucket built from strictly
    positive arguments, after any number of [Allow] and [Wait] calls (a
    [Wait] may still be suspended: its script may stop anywhere) and, for
    callers that interleave, after any single iteration of a [Wait]. *)
Inductive reachable : TokenBucket -> Prop :=
| reach_New (now : Time) (maxOps : Z) (per : Duration) (maxBucketSize : Z) :
    0 < maxOps -> 0 < per -> 0 < maxBucketSize ->
    reachable (NewTokenBucket now maxOps per maxBucketSize)
| reach_Allow (tb : TokenBucket) (now : Time) :
    reachable tb -> lastUpdated tb <= now ->
    reachable (snd (Allow now tb))
| reach_Wait (tb : TokenBucket) (script : list (Time * select_case)) :
    reachable tb -> nondecreasing (lastUpdated tb) (map fst script) ->
    reachable (snd (Wait script tb))
| reach_Wait_attempt (tb : TokenBucket) (now : Time) :
    reachable tb -> lastUpdated tb <= now ->
    reachable (attempt_bucket (Wait_attempt now tb)).

(** [0 <= tokens <= max_tokens], with the comparisons of Go. *)
Definition tokens_in_range (tb : TokenBucket) : bool :=
  ge (tokens tb) (Fin 0) && ge (max_tokens tb) (tokens tb).

(** ** Concurrent callers of Allow *)

(** Where a caller stands in [Allow]. *)
Inductive pc : Type :=
| Idle                   (* not inside a call *)
| Locked                 (* tb.mtx.Lock() has returned *)
| Refilled               (* tb.refillBucket() has returned *)
| Returning (b : bool).  (* result chosen, the deferred Unlock is pending *)

Record caller : Type := mkCaller {
  at_pc : pc;
  calls_left : nat;       (* calls of Allow not yet started *)
  results : list bool     (* what its finished calls returned *)
}.

Record system : Type := mkSystem {
  bucket : TokenBucket;
  clock : Time;
  callers : list caller
}.

(** One atomic step of caller [i]; [None] when it cannot move (it has no
    call left, or it is blocked in [Lock] because the mutex is held). *)
Definition step (i : nat) (s : system) : option system :=
  match callers s !! i with
  | None => None
  | Some c =>
      match at_pc c with
      | Idle =>
          match calls_left c with
          | O => None
          | S n =>
              if mtx (bucket s) then None
              else Some (mkSystem (Lock (bucket s)) (clock s)
                     (<[i := mkCaller Locked n (results c)]> (callers s)))
          end
      | Locked =>
          Some (mkSystem (refillBucket (clock s) (bucket s)) (clock s)
                  (<[i := mkCaller Refilled (calls_left c) (results c)]>
                     (callers s)))
      | Refilled =>
          if ge (tokens (bucket s)) one then
            Some (mkSystem (take_token (bucket s)) (clock s)
                    (<[i := mkCaller (Returning true) (calls_left c) (results c)]>
                       (callers s)))
          else
            Some (mkSystem (bucket s) (clock s)
                    (<[i := mkCaller (Returning false) (calls_left c) (results c)]>
                       (callers s)))
      | Returning b =>
          Some (mkSystem (Unlock (bucket s)) (clock s)
                  (<[i := mkCaller Idle (calls_left c) (results c ++ [b])]>
                     (callers s)))
      end
  end.

(** What the scheduler does next: let a caller take a step, or let time
    pass. *)
Inductive event : Type :=
| Run (i : nat)
| Tick (d : Duration).

Definition is_Run (e : event) : bool :=
  match e with Run _ => true | Tick _ => false end.

Definition step_event (e : event) (s : system) : option system :=
  match e with
  | Run i => step i s
  | Tick d =>
      if 0 <=? d then Some (mkSystem (bucket s) (clock s + d) (callers s))
      else None
  end.

Fixpoint run (sched : list event) (s : system) : option system :=
  match sched with
  | [] => Some s
  | e :: sched' =>
      match step_event e s with
      | Some s' => run sched' s'
      | None => None
      end
  end.

(** A fresh bucket shared by callers that are to make [ks] calls each. *)
Definition start (now : Time) (maxOps : Z) (per : Duration)
    (maxBucketSize : Z) (ks : list nat) : system :=
  mkSystem (NewTokenBucket now maxOps per maxBucketSize) now
           (map (fun k => mkCaller Idle k []) ks).

Definition finished (c : caller) : bool :=
  match at_pc c, calls_left c with
  | Idle, O => true
  | _, _ => false
  end.

Fixpoint count_true (bs : list bool) : nat :=
  match bs with
  | [] => 0
  | b :: bs' => ((if b then 1 else 0) + count_true bs')%nat
  end.

Fixpoint count_false (bs : list bool) : nat :=
  match bs with
  | [] => 0
  | b :: bs' => ((if b then 0 else 1) + count_false bs')%nat
  end.


(** ** Invariants used in the proofs *)


(** Finite, non-negative rate; finite capacity; token count between 0 and
    the capacity. *)
Definition well_formed (tb : TokenBucket) : Prop :=
  exists r m t : Q,
    rate tb = Fin r /\ max_tokens tb = Fin m /\ tokens tb = Fin t /\
    (0 <= r)%Q /\ (0 <= t)%Q /\ (t <= m)%Q.

(** Counters over the callers of a system. *)
Definition busy (c : caller) : nat :=
  match at_pc c with Idle => 0 | _ => 1 end.

Definition pending_true (c : caller) : nat :=
  match at_pc c with Returning true => 1 | _ => 0 end.

Definition pending_false (c : caller) : nat :=
  match at_pc c with Returning false => 1 | _ => 0 end.

Definition granted (c : caller) : nat := count_true (results c).
Definition refused (c : caller) : nat := count_false (results c).

(** Calls of a caller: finished, running and still to start. *)
Definition work (c : caller) : nat :=
  length (results c) + busy c + calls_left c.


(** Steps a caller still has to take: four for each call not yet started,
    fewer for the call it is in. *)
Definition remaining (c : caller) : nat :=
  (4 * calls_left c +
   match at_pc c with
   | Idle => 0
   | Locked => 3
   | Refilled => 2
   | Returning _ => 1
   end)%nat.

(** ** Histories of accesses *)

(** One pass through a critical section of the bucket: a call of [Allow], or
    one iteration of the loop of [Wait].  Callers take them one at a time,
    in the order in which they get the mutex. *)
Inductive access : Type :=
| DoAllow (now : Time)
| DoWait (now : Time).

Definition access_time (a : access) : Time :=
  match a with
  | DoAllow now => now
  | DoWait now => now
  end.

(** The access, with whether it took a token. *)
Definition perform (a : access) (tb : TokenBucket) : bool * TokenBucket :=
  match a with
  | DoAllow now => Allow now tb
  | DoWait now =>
      match Wait_attempt now tb with
      | Acquired tb' => (true, tb')
      | Suspend _ _ tb' => (false, tb')
      end
  end.

Fixpoint history (accs : list access) (tb : TokenBucket)
    : list bool * TokenBucket :=
  match accs with
  | [] => ([], tb)
  | a :: accs' =>
      let '(b, tb1) := perform a tb in
      let '(bs, tb2) := history accs' tb1 in
      (b :: bs, tb2)
  end.




(** The mutex is held exactly when one caller is inside [Allow]. *)
Definition exclusive (s : system) : Prop :=
  sum_list_with busy (callers s) = (if mtx (bucket s) then 1 else 0)%nat.




(** * Properties *)

(** ** The scenarios of token_bucket_test.go, evaluated *)

Example new_bucket_rate :
  rate (NewTokenBucket 0 10 Second 5) = Fin (10 / (1 + 0 / 1000000000))%Q.
Proof. reflexivity. Qed.

Example TestNewTokenBucket :
  fst (Allow 0 (NewTokenBucket 0 10 Second 10)) = true.
Proof. vm_compute. reflexivity. Qed.

Example TestAllow_Success :
  fst (Allow_n 5 0 (NewTokenBucket 0 10 Second 5)) = replicate 5 true.
Proof. vm_compute. reflexivity. Qed.

Example TestAllow_BucketEmpty :
  fst (Allow_n 3 0 (NewTokenBucket 0 10 Second 2)) = [true; true; false].
Proof. vm_compute. reflexivity. Qed.

Example TestAllow_Refill :
  let tb := snd (Allow_n 10 0 (NewTokenBucket 0 10 Second 10)) in
  fst (Allow 0 tb) = false /\
  fst (Allow (200 * Millisecond) (snd (Allow 0 tb))) = true.
Proof. vm_compute. split; reflexivity. Qed.

Example TestWait_Success :
  let tb := snd (Allow 0 (NewTokenBucket 0 10 Second 1)) in
  fst (Wait [(0, TimeAfter); (100 * Millisecond, TimeAfter)] tb)
  = Returned None.
Proof. vm_compute. reflexivity. Qed.

Example TestWait_ContextCancellation :
  let tb := snd (Allow 0 (NewTokenBucket 0 1 (10 * Second) 1)) in
  fst (Wait [(0, CtxDone DeadlineExceeded)] tb)
  = Returned (Some DeadlineExceeded).
Proof. vm_compute. reflexivity. Qed.

Example TestMultipleInstances_IndependentRefill :
  let fast := snd (Allow 0 (NewTokenBucket 0 10 Second 1)) in
  let slow := snd (Allow 0 (NewTokenBucket 0 2 Second 1)) in
  fst (Allow (150 * Millisecond) fast) = true /\
  fst (Allow (150 * Millisecond) slow) = false /\
  fst (Allow (550 * Millisecond) (snd (Allow (150 * Millisecond) slow)))
  = true.
Proof. vm_compute. repeat split; reflexivity. Qed.

(** ** Facts about the arithmetic *)

Section Arithmetic.

Local Open Scope Q_scope.

Lemma Qltb_true (a b : Q) : Qltb a b = true <-> a < b.
Proof.
  unfold Qltb. rewrite negb_true_iff, <- not_true_iff_false, Qle_bool_iff.
  split; [apply Qnot_le_lt | apply Qlt_not_le].
Qed.

Lemma Qltb_false (a b : Q) : Qltb a b = false <-> b <= a.
Proof. unfold Qltb. rewrite negb_false_iff. apply Qle_bool_iff. Qed.


Lemma Qeqb_false (a b : Q) : Qeqb a b = false <-> ~ a == b.
Proof. unfold Qeqb. rewrite <- not_true_iff_false, Qeq_bool_iff. tauto. Qed.


Lemma same_sym (x y : float64) : same x y -> same y x.
Proof. destruct x, y; simpl; auto with qarith. Qed.

Lemma same_trans (x y z : float64) : same x y -> same y z -> same x z.
Proof.
  destruct x, y, z; simpl; try tauto. intros H1 H2. now rewrite H1.
Qed.


Lemma ge_same (x x' y y' : float64) :
  same x x' -> same y y' -> ge x y = ge x' y'.
Proof.
  destruct x, x', y, y'; simpl; try tauto.
  intros H1 H2. now rewrite H1, H2.
Qed.


(** [1 > x] excludes [x >= 1]. *)
Lemma gt_one_not_ge (x : float64) : gt one x = true -> ge x one = false.
Proof.
  destruct x; simpl; try discriminate; auto.
  intros H. apply Qltb_true in H.
  apply not_true_iff_false. rewrite Qle_bool_iff. now apply Qlt_not_le.
Qed.

Lemma ge_Fin (a b : Q) : ge (Fin a) (Fin b) = true <-> b <= a.
Proof. simpl. apply Qle_bool_iff. Qed.



Lemma gt_Fin_false (a b : Q) : gt (Fin a) (Fin b) = false <-> a <= b.
Proof. simpl. apply Qltb_false. Qed.

(** [d.Seconds()] is exactly [d / 1e9]. *)
Lemma Seconds_Fin (d : Duration) :
  Seconds d =
  Fin (inject_Z (Z.quot d Second) + inject_Z (Z.rem d Second) / (1000000000 # 1)).
Proof. reflexivity. Qed.

Lemma Seconds_exact (d : Duration) :
  same (Seconds d) (Fin (inject_Z d / (1000000000 # 1))).
Proof.
  rewrite Seconds_Fin. simpl.
  rewrite (Z.quot_rem' d Second) at 3.
  rewrite inject_Z_plus, inject_Z_mult.
  change (inject_Z Second) with (1000000000 # 1). field.
Qed.

Lemma Seconds_zero : Seconds 0%Z = Fin (0 + 0 / (1000000000 # 1)).
Proof. reflexivity. Qed.

Lemma Sub_diag (t : Time) : Sub t t = 0%Z.
Proof. unfold Sub. now rewrite Z.sub_diag. Qed.

Lemma Sub_nonneg (t u : Time) : (u <= t)%Z -> (0 <= Sub t u)%Z.
Proof.
  intros H. unfold Sub, maxDuration, minDuration.
  destruct (Z.ltb_spec (2 ^ 63 - 1) (t - u)); [lia |].
  destruct (Z.ltb_spec (t - u) (- 2 ^ 63)); lia.
Qed.

Lemma Sub_exact (t u : Time) :
  (minDuration <= t - u <= maxDuration)%Z -> Sub t u = (t - u)%Z.
Proof.
  unfold Sub. intros [H1 H2].
  destruct (Z.ltb_spec maxDuration (t - u)); [lia |].
  destruct (Z.ltb_spec (t - u) minDuration); [lia | reflexivity].
Qed.

Lemma Seconds_nonneg (d : Duration) :
  (0 <= d)%Z -> exists q, Seconds d = Fin q /\ 0 <= q.
Proof.
  intros H. eexists. split; [apply Seconds_Fin |].
  pose proof (Seconds_exact d) as E. rewrite Seconds_Fin in E. simpl in E.
  rewrite E. apply Qle_shift_div_l; [reflexivity |].
  rewrite Qmult_0_l. change 0 with (inject_Z 0). now rewrite <- Zle_Qle.
Qed.

End Arithmetic.

(** ** The refill step *)

Section Refill.

Local Open Scope Q_scope.

Lemma refillBucket_tokens (now : Time) (tb : TokenBucket) :
  tokens (refillBucket now tb) =
  let x := add (tokens tb) (mul (elapsed now tb) (rate tb)) in
  if gt x (max_tokens tb) then max_tokens tb else x.
Proof.
  unfold refillBucket, elapsed. cbn.
  destruct (gt _ _); reflexivity.
Qed.

Lemma refillBucket_fields (now : Time) (tb : TokenBucket) :
  mtx (refillBucket now tb) = mtx tb /\
  rate (refillBucket now tb) = rate tb /\
  max_tokens (refillBucket now tb) = max_tokens tb /\
  lastUpdated (refillBucket now tb) = now.
Proof.
  unfold refillBucket. cbn. destruct (gt _ _); cbn; auto.
Qed.

Lemma cap_is_fmin (m x : float64) :
  m <> NaN -> same (if gt x m then m else x) (fmin m x).
Proof.
  intros Hm. destruct m as [m | | |], x as [a | | |]; try congruence;
    cbn; auto with qarith.
  destruct (Qltb m a) eqn:Hlt.
  - apply Qltb_true in Hlt.
    assert (Hle : Qle_bool m a = true)
      by (apply Qle_bool_iff; now apply Qlt_le_weak).
    rewrite Hle. cbn. reflexivity.
  - apply Qltb_false in Hlt.
    destruct (Qle_bool m a) eqn:Hle; cbn; [| reflexivity].
    apply Qle_bool_iff in Hle. now apply Qle_antisym.
Qed.

End Refill.

(** C1: the refill step, run first and with the lock held by [Allow] and by
    every iteration of [Wait], sets the token count to
    min(max_tokens, tokens + elapsed * rate), where elapsed is the number of
    seconds between lastUpdated and the clock reading (exactly the
    nanosecond difference over 1e9, the difference being the plain one
    whenever it fits a Duration), and then sets lastUpdated to that
    reading. *)
Theorem refillBucket_is_capped_refill (now : Time) (tb : TokenBucket) :
  max_tokens tb <> NaN ->
  same (tokens (refillBucket now tb))
       (fmin (max_tokens tb)
             (add (tokens tb) (mul (elapsed now tb) (rate tb)))) /\
  same (elapsed now tb)
       (Fin (inject_Z (Sub now (lastUpdated tb)) / (1000000000 # 1))) /\
  (minDuration <= now - lastUpdated tb <= maxDuration ->
   Sub now (lastUpdated tb) = now - lastUpdated tb) /\
  lastUpdated (refillBucket now tb) = now /\
  rate (refillBucket now tb) = rate tb /\
  max_tokens (refillBucket now tb) = max_tokens tb /\
  mtx (refillBucket now (Lock tb)) = true /\
  fst (Allow now tb) = ge (tokens (refillBucket now (Lock tb))) one /\
  match Wait_attempt now tb with
  | Acquired _ => ge (tokens (refillBucket now (Lock tb))) one = true
  | Suspend _ _ tb' => tb' = Unlock (refillBucket now (Lock tb))
  end.
Proof.
  intros Hm.
  destruct (refillBucket_fields now tb) as (_ & Hr & Hmax & Hl).
  repeat split; auto.
  - rewrite refillBucket_tokens. cbv zeta. now apply cap_is_fmin.
  - apply Seconds_exact.
  - apply Sub_exact.
  - apply (refillBucket_fields now (Lock tb)).
  - unfold Allow. cbv zeta. destruct (ge _ one); reflexivity.
  - unfold Wait_attempt. cbv zeta. destruct (ge _ one); reflexivity.
Qed.

(** C3: [Allow] runs the refill step first; when the refilled count is at
    least 1 it subtracts exactly 1 and returns true, otherwise it returns
    false and leaves the refilled count as it is.  In both cases the lock is
    released and rate, capacity and timestamp are those of the refill. *)
Theorem Allow_takes_one_or_nothing (now : Time) (tb : TokenBucket) :
  let r := refillBucket now (Lock tb) in
  fst (Allow now tb) = ge (tokens r) one /\
  tokens (snd (Allow now tb)) =
    (if fst (Allow now tb) then sub (tokens r) one else tokens r) /\
  (forall q : Q, tokens r = Fin q ->
     if Qle_bool 1 q
     then Allow now tb = (true, Unlock (set_tokens (Fin (q + - (1))) r))
     else Allow now tb = (false, Unlock r)) /\
  rate (snd (Allow now tb)) = rate tb /\
  max_tokens (snd (Allow now tb)) = max_tokens tb /\
  lastUpdated (snd (Allow now tb)) = now /\
  mtx (snd (Allow now tb)) = false.
Proof.
  intros r.
  destruct (refillBucket_fields now (Lock tb)) as (_ & Hr & Hm & Hl).
  fold r in Hr, Hm, Hl.
  unfold Allow. cbv zeta. fold r.
  split; [destruct (ge (tokens r) one); reflexivity |].
  split; [destruct (ge (tokens r) one); reflexivity |].
  split.
  - intros q Hq. rewrite Hq. cbn [ge one].
    destruct (Qle_bool 1 q); [| reflexivity].
    unfold take_token. rewrite Hq. reflexivity.
  - destruct (ge (tokens r) one); cbn; auto.
Qed.

Section Idempotence.

Local Open Scope Q_scope.



End Idempotence.


(** C7: when the refilled count is below 1, the iteration of [Wait] computes
    tokensNeeded = 1 - tokens and the suspension time tokensNeeded / rate
    seconds converted to nanoseconds, and the lock is released before the
    suspension: the state seen while suspended, and by the next
    iteration, is the unlocked refilled bucket. *)
Theorem Wait_attempt_suspends_unlocked (now : Time) (tb : TokenBucket) :
  let r := refillBucket now (Lock tb) in
  gt one (tokens r) = true ->
  Wait_attempt now tb =
    Suspend (sub one (tokens r))
            (Duration_of_float64
               (mul (div (sub one (tokens r)) (rate tb)) (of_int Second)))
            (Unlock r) /\
  mtx (Unlock r) = false /\
  (forall script, Wait ((now, TimeAfter) :: script) tb = Wait script (Unlock r)) /\
  (forall q rr : Q, tokens r = Fin q -> rate tb = Fin rr -> ~ (rr == 0)%Q ->
     mul (div (sub one (tokens r)) (rate tb)) (of_int Second) =
     Fin ((1 + - q) / rr * (1000000000 # 1))).
Proof.
  intros r Hlt.
  destruct (refillBucket_fields now (Lock tb)) as (_ & Hr & _).
  fold r in Hr.
  assert (Hw : Wait_attempt now tb =
    Suspend (sub one (tokens r))
            (Duration_of_float64
               (mul (div (sub one (tokens r)) (rate tb)) (of_int Second)))
            (Unlock r)).
  { unfold Wait_attempt. cbv zeta. fold r.
    rewrite (gt_one_not_ge _ Hlt), Hr. reflexivity. }
  split; [exact Hw |]. split; [reflexivity |]. split.
  - intros script. cbn [Wait]. rewrite Hw. reflexivity.
  - intros q rr Hq Hrr Hne. rewrite Hq, Hrr.
    apply Qeqb_false in Hne. unfold sub, one, neg, add, div.
    rewrite Hne. reflexivity.
Qed.

(** C10: when the refilled count is at least 1, [Wait] returns nil and takes
    one token whatever the state of the context, also when its [select]
    would have taken the [ctx.Done()] branch: the token check comes first. *)
Theorem Wait_takes_token_before_ctx (now : Time) (sel : select_case)
    (script : list (Time * select_case)) (tb : TokenBucket) :
  let r := refillBucket now (Lock tb) in
  ge (tokens r) one = true ->
  Wait ((now, sel) :: script) tb = (Returned None, Unlock (take_token r)) /\
  tokens (snd (Wait ((now, sel) :: script) tb)) = sub (tokens r) one.
Proof.
  intros r H.
  assert (E : Wait ((now, sel) :: script) tb = (Returned None, Unlock (take_token r))).
  { cbn [Wait]. unfold Wait_attempt. cbv zeta. fold r. now rewrite H. }
  split; [exact E | now rewrite E].
Qed.

(** ** Cancellation of Wait *)

Lemma refill_all_app (l1 l2 : list Time) (tb : TokenBucket) :
  refill_all (l1 ++ l2) tb = refill_all l2 (refill_all l1 tb).
Proof.
  revert tb. induction l1 as [| t l1 IH]; intros tb; cbn; [reflexivity |].
  apply IH.
Qed.

Lemma starved_app (l1 l2 : list Time) (tb : TokenBucket) :
  starved (l1 ++ l2) tb = starved l1 tb && starved l2 (refill_all l1 tb).
Proof.
  revert tb. induction l1 as [| t l1 IH]; intros tb; cbn; [reflexivity |].
  rewrite IH. now rewrite andb_assoc.
Qed.

Lemma Wait_attempt_starved (now : Time) (tb : TokenBucket) :
  ge (tokens (refillBucket now (Lock tb))) one = false ->
  exists n d,
    Wait_attempt now tb = Suspend n d (Unlock (refillBucket now (Lock tb))).
Proof.
  intros H. unfold Wait_attempt. cbv zeta. rewrite H. eauto.
Qed.

(** While the timer branch is taken and no token is found, the loop only
    refills. *)
Lemma Wait_timer_only (pre rest : list (Time * select_case)) (tb : TokenBucket) :
  forallb timer_fired pre = true ->
  starved (map fst pre) tb = true ->
  Wait (pre ++ rest) tb = Wait rest (refill_all (map fst pre) tb).
Proof.
  revert tb. induction pre as [| [now sel] pre IH]; intros tb Hsel Hst;
    [reflexivity |].
  cbn in Hsel, Hst. apply andb_prop in Hsel as [Hs1 Hs2].
  apply andb_prop in Hst as [Hst1 Hst2].
  apply negb_true_iff in Hst1.
  destruct (Wait_attempt_starved now tb Hst1) as (n & d & Hw).
  cbn [app Wait map fst refill_all]. rewrite Hw.
  destruct sel; [| discriminate]. now apply IH.
Qed.

(** A call that returns an error has applied refill steps and nothing
    else. *)
Lemma Wait_error_only_refills (script : list (Time * select_case))
    (tb tb' : TokenBucket) (err : ctx_error) :
  Wait script tb = (Returned (Some err), tb') ->
  exists k : nat, tb' = refill_all (map fst (take k script)) tb.
Proof.
  revert tb. induction script as [| [now sel] script IH]; intros tb H;
    [discriminate |].
  cbn [Wait] in H. unfold Wait_attempt in H. cbv zeta in H.
  destruct (ge _ one); [discriminate |].
  destruct sel.
  - apply IH in H as [k Hk]. exists (S k). exact Hk.
  - inversion H. exists 1%nat. reflexivity.
Qed.

(** C4: when the context is done before any iteration finds a whole token
    (every earlier iteration took the timer branch), [Wait] returns the
    context's error and the bucket has gone through refill steps only: its
    token count is the one the last refill produced, without decrement. *)
Theorem Wait_cancelled_takes_nothing (pre post : list (Time * select_case))
    (now : Time) (err : ctx_error) (tb : TokenBucket) :
  forallb timer_fired pre = true ->
  starved (map fst pre ++ [now]) tb = true ->
  Wait (pre ++ (now, CtxDone err) :: post) tb =
    (Returned (Some err), refill_all (map fst pre ++ [now]) tb) /\
  tokens (snd (Wait (pre ++ (now, CtxDone err) :: post) tb)) =
    tokens (refillBucket now (Lock (refill_all (map fst pre) tb))).
Proof.
  intros Hsel Hst.
  rewrite starved_app in Hst. apply andb_prop in Hst as [Hst1 Hst2].
  cbn in Hst2. rewrite andb_true_r in Hst2. apply negb_true_iff in Hst2.
  assert (E : Wait (pre ++ (now, CtxDone err) :: post) tb =
              (Returned (Some err), refill_all (map fst pre ++ [now]) tb)).
  { rewrite (Wait_timer_only pre _ tb Hsel Hst1).
    destruct (Wait_attempt_starved now _ Hst2) as (n & d & Hw).
    cbn [Wait]. rewrite Hw. rewrite refill_all_app. reflexivity. }
  split; [exact E |].
  rewrite E, refill_all_app. reflexivity.
Qed.

(** ** Construction *)

Section Construction.

Local Open Scope Q_scope.

Lemma Seconds_nonzero (per : Duration) :
  per <> 0%Z ->
  exists s, Seconds per = Fin s /\ ~ s == 0 /\
            s == inject_Z per / (1000000000 # 1).
Proof.
  intros Hper. eexists. split; [apply Seconds_Fin |].
  pose proof (Seconds_exact per) as E. rewrite Seconds_Fin in E. cbn in E.
  split; [| exact E].
  rewrite E. intros H.
  assert (H0 : inject_Z per == 0).
  { assert (Hnz : ~ (1000000000 # 1) == 0) by (intros Hc; vm_compute in Hc; discriminate Hc).
    rewrite <- (Qmult_div_r (inject_Z per) (1000000000 # 1) Hnz).
    rewrite H. ring. }
  apply Hper. apply (proj1 (inject_Z_injective per 0)). exact H0.
Qed.

Lemma NewTokenBucket_rate_finite (now : Time) (maxOps : Z) (per : Duration)
    (maxBucketSize : Z) :
  per <> 0%Z ->
  exists q, rate (NewTokenBucket now maxOps per maxBucketSize) = Fin q /\
            q == inject_Z maxOps / (inject_Z per / (1000000000 # 1)).
Proof.
  intros Hper. destruct (Seconds_nonzero per Hper) as (s & Hs & Hne & Hv).
  exists (inject_Z maxOps / s). cbn [NewTokenBucket rate]. rewrite Hs.
  unfold of_int, div. apply Qeqb_false in Hne. rewrite Hne.
  split; [reflexivity |]. now rewrite Hv.
Qed.

Lemma NewTokenBucket_rate_zero_period (now : Time) (maxOps maxBucketSize : Z) :
  rate (NewTokenBucket now maxOps 0%Z maxBucketSize) =
  match (maxOps ?= 0)%Z with Gt => PInf | Lt => NInf | Eq => NaN end.
Proof.
  cbn [NewTokenBucket rate]. rewrite Seconds_zero. unfold of_int, div.
  change (Qeqb (0 + 0 / (1000000000 # 1)) 0) with true. cbv iota.
  destruct maxOps as [| p | p]; reflexivity.
Qed.

Lemma NewTokenBucket_rate_positive (now : Time) (maxOps : Z) (per : Duration)
    (maxBucketSize : Z) :
  (0 < maxOps)%Z -> (0 < per)%Z ->
  exists q, rate (NewTokenBucket now maxOps per maxBucketSize) = Fin q /\ 0 < q.
Proof.
  intros Hops Hper.
  destruct (NewTokenBucket_rate_finite now maxOps per maxBucketSize)
    as (q & Hq & Hv); [lia |].
  exists q. split; [exact Hq |]. rewrite Hv.
  apply Qlt_shift_div_l.
  - apply Qlt_shift_div_l; [reflexivity |]. rewrite Qmult_0_l.
    change 0 with (inject_Z 0). now rewrite <- Zlt_Qlt.
  - rewrite Qmult_0_l. change 0 with (inject_Z 0). now rewrite <- Zlt_Qlt.
Qed.

Lemma NewTokenBucket_rate_negative (now : Time) (maxOps : Z) (per : Duration)
    (maxBucketSize : Z) :
  (maxOps < 0)%Z -> (0 < per)%Z ->
  exists q, rate (NewTokenBucket now maxOps per maxBucketSize) = Fin q /\ q < 0.
Proof.
  intros Hops Hper.
  destruct (NewTokenBucket_rate_finite now maxOps per maxBucketSize)
    as (q & Hq & Hv); [lia |].
  exists q. split; [exact Hq |]. rewrite Hv.
  apply Qlt_shift_div_r.
  - apply Qlt_shift_div_l; [reflexivity |]. rewrite Qmult_0_l.
    change 0 with (inject_Z 0). now rewrite <- Zlt_Qlt.
  - rewrite Qmult_0_l. change 0 with (inject_Z 0). now rewrite <- Zlt_Qlt.
Qed.

End Construction.

(** C6 (as the code has it): [NewTokenBucket] checks nothing and always
    returns an instance, with rate float64(maxOps) / per.Seconds().  For a
    non-zero period this is the finite quotient of maxOps by the period in
    seconds, so it is negative when the two have opposite signs; for a zero
    period it is +Inf, -Inf or NaN according to the sign of maxOps.  With
    strictly positive arguments the rate is finite and strictly positive. *)
Theorem NewTokenBucket_rate_by_sign (now : Time) (maxOps : Z) (per : Duration)
    (maxBucketSize : Z) :
  let tb := NewTokenBucket now maxOps per maxBucketSize in
  (per <> 0 ->
   exists q, rate tb = Fin q /\
             (q == inject_Z maxOps / (inject_Z per / (1000000000 # 1)))%Q) /\
  (per = 0 ->
   rate tb = match maxOps ?= 0 with Gt => PInf | Lt => NInf | Eq => NaN end) /\
  (0 < maxOps -> 0 < per -> exists q, rate tb = Fin q /\ (0 < q)%Q) /\
  (maxOps < 0 -> 0 < per -> exists q, rate tb = Fin q /\ (q < 0)%Q).
Proof.
  intros tb. split; [apply NewTokenBucket_rate_finite |]. split; [| split].
  - intros ->. apply NewTokenBucket_rate_zero_period.
  - apply NewTokenBucket_rate_positive.
  - apply NewTokenBucket_rate_negative.
Qed.

(** C6 (as stated) fails: a zero period gives an instance whose rate is +Inf,
    and a negative operation count one whose rate is negative. *)
Lemma NewTokenBucket_accepts_bad_rate :
  rate (NewTokenBucket 0 1 0 1) = PInf /\
  is_inf (rate (NewTokenBucket 0 1 0 1)) = true /\
  gt (Fin 0) (rate (NewTokenBucket 0 (-1) Second 1)) = true.
Proof. repeat split. Qed.

(** ** Calls with no time passing *)

Section NoTimePassing.

Local Open Scope Q_scope.









End NoTimePassing.


(** ** The range of the token count *)

Section Range.

Local Open Scope Q_scope.

Lemma well_formed_set_mtx (b : bool) (tb : TokenBucket) :
  well_formed tb -> well_formed (set_mtx b tb).
Proof. intros (r & m & t & H). exists r, m, t. exact H. Qed.

Lemma well_formed_New (now : Time) (maxOps : Z) (per : Duration)
    (maxBucketSize : Z) :
  (0 < maxOps)%Z -> (0 < per)%Z -> (0 < maxBucketSize)%Z ->
  well_formed (NewTokenBucket now maxOps per maxBucketSize).
Proof.
  intros Hops Hper Hcap.
  destruct (NewTokenBucket_rate_positive now maxOps per maxBucketSize Hops Hper)
    as (r & Hr & Hr0).
  exists r, (inject_Z maxBucketSize), (inject_Z maxBucketSize).
  repeat split; auto.
  - now apply Qlt_le_weak.
  - change 0 with (inject_Z 0). rewrite <- Zle_Qle. lia.
  - apply Qle_refl.
Qed.

Lemma well_formed_refill (now : Time) (tb : TokenBucket) :
  well_formed tb -> (lastUpdated tb <= now)%Z ->
  well_formed (refillBucket now tb).
Proof.
  intros (r & m & t & Hr & Hm & Ht & Hr0 & Ht0 & Htm) Hclock.
  destruct (refillBucket_fields now tb) as (_ & Hr' & Hm' & _).
  destruct (Seconds_nonneg _ (Sub_nonneg _ _ Hclock)) as (e & He & He0).
  pose proof (refillBucket_tokens now tb) as E. cbv zeta in E.
  unfold elapsed in E. rewrite He, Hr, Ht, Hm in E. cbn [mul add] in E.
  assert (Hx : 0 <= t + e * r).
  { rewrite <- (Qplus_0_r 0). apply Qplus_le_compat; [exact Ht0 |].
    now apply Qmult_le_0_compat. }
  destruct (gt (Fin (t + e * r)) (Fin m)) eqn:Hg.
  - exists r, m, m. rewrite Hr', Hm'. repeat split; auto.
    + now apply Qle_trans with t.
    + apply Qle_refl.
  - apply gt_Fin_false in Hg.
    exists r, m, (t + e * r). rewrite Hr', Hm'. repeat split; auto.
Qed.

Lemma well_formed_take_token (tb : TokenBucket) :
  well_formed tb -> ge (tokens tb) one = true -> well_formed (take_token tb).
Proof.
  intros (r & m & t & Hr & Hm & Ht & Hr0 & Ht0 & Htm) Hge.
  rewrite Ht in Hge. apply ge_Fin in Hge.
  exists r, m, (t + - (1)). unfold take_token. cbn. rewrite Ht. cbn.
  repeat split; auto; lra.
Qed.

Lemma well_formed_Allow (now : Time) (tb : TokenBucket) :
  well_formed tb -> (lastUpdated tb <= now)%Z ->
  well_formed (snd (Allow now tb)).
Proof.
  intros H Hclock.
  assert (Hr : well_formed (refillBucket now (Lock tb)))
    by (apply well_formed_refill; [now apply well_formed_set_mtx | exact Hclock]).
  unfold Allow. cbv zeta.
  destruct (ge (tokens (refillBucket now (Lock tb))) one) eqn:Hge; cbn [snd];
    apply well_formed_set_mtx; [now apply well_formed_take_token | exact Hr].
Qed.

Lemma well_formed_Wait_attempt (now : Time) (tb : TokenBucket) :
  well_formed tb -> (lastUpdated tb <= now)%Z ->
  well_formed (attempt_bucket (Wait_attempt now tb)).
Proof.
  intros H Hclock.
  assert (Hr : well_formed (refillBucket now (Lock tb)))
    by (apply well_formed_refill; [now apply well_formed_set_mtx | exact Hclock]).
  unfold Wait_attempt. cbv zeta.
  destruct (ge (tokens (refillBucket now (Lock tb))) one) eqn:Hge;
    cbn [attempt_bucket];
    apply well_formed_set_mtx; [now apply well_formed_take_token | exact Hr].
Qed.

Lemma well_formed_Wait (script : list (Time * select_case)) (tb : TokenBucket) :
  well_formed tb -> nondecreasing (lastUpdated tb) (map fst script) ->
  well_formed (snd (Wait script tb)).
Proof.
  revert tb. induction script as [| [now sel] script IH]; intros tb H Hclock;
    [exact H |].
  cbn in Hclock. destruct Hclock as [Hnow Hrest].
  assert (Hr : well_formed (refillBucket now (Lock tb)))
    by (apply well_formed_refill; [now apply well_formed_set_mtx | exact Hnow]).
  destruct (refillBucket_fields now (Lock tb)) as (_ & _ & _ & Hl).
  cbn [Wait]. unfold Wait_attempt. cbv zeta.
  destruct (ge (tokens (refillBucket now (Lock tb))) one) eqn:Hge.
  - cbn [snd]. now apply well_formed_set_mtx, well_formed_take_token.
  - destruct sel.
    + apply IH; [now apply well_formed_set_mtx |].
      cbn [Unlock set_mtx lastUpdated]. now rewrite Hl.
    + cbn [snd]. now apply well_formed_set_mtx.
Qed.

Lemma well_formed_in_range (tb : TokenBucket) :
  well_formed tb -> tokens_in_range tb = true.
Proof.
  intros (r & m & t & _ & Hm & Ht & _ & Ht0 & Htm).
  unfold tokens_in_range. rewrite Hm, Ht.
  apply andb_true_intro. split; now apply ge_Fin.
Qed.

Lemma reachable_well_formed (tb : TokenBucket) :
  reachable tb -> well_formed tb.
Proof.
  induction 1 as [now ops per cap Hops Hper Hcap
                 | tb now _ IH Hclock | tb script _ IH Hclock
                 | tb now _ IH Hclock].
  - now apply well_formed_New.
  - now apply well_formed_Allow.
  - now apply well_formed_Wait.
  - now apply well_formed_Wait_attempt.
Qed.

End Range.

(** C2: for a bucket built with strictly positive operation count, period
    and capacity and used under a clock that never goes back,
    0 <= tokens <= max_tokens holds at every observable point: after the
    construction, after every [Allow], and after or during every [Wait]. *)
Theorem tokens_always_in_range (tb : TokenBucket) :
  reachable tb ->
  tokens_in_range tb = true /\
  exists t m : Q,
    tokens tb = Fin t /\ max_tokens tb = Fin m /\ (0 <= t)%Q /\ (t <= m)%Q.
Proof.
  intros H. apply reachable_well_formed in H. split.
  - now apply well_formed_in_range.
  - destruct H as (r & m & t & _ & Hm & Ht & _ & Ht0 & Htm).
    exists t, m. auto.
Qed.

(** ** Concurrent callers *)

Section Interleaving.

Lemma sum_list_with_insert {A : Type} (f : A -> nat) (l : list A) (i : nat)
    (c c' : A) :
  l !! i = Some c ->
  (sum_list_with f (<[i := c']> l) + f c = sum_list_with f l + f c')%nat.
Proof.
  revert i. induction l as [| a l IH]; intros i Hi; [discriminate |].
  destruct i as [| i].
  - injection Hi as ->. cbn. lia.
  - specialize (IH i Hi).
    change (<[S i := c']> (a :: l)) with (a :: <[i := c']> l).
    cbn [sum_list_with]. lia.
Qed.








Lemma fresh_callers_counters (ks : list nat) :
  let l := map (fun k => mkCaller Idle k []) ks in
  sum_list_with busy l = 0%nat /\ sum_list_with granted l = 0%nat /\
  sum_list_with pending_true l = 0%nat /\ sum_list_with refused l = 0%nat /\
  sum_list_with pending_false l = 0%nat /\ sum_list_with work l = sum_list ks.
Proof.
  induction ks as [| k ks IH]; cbn; [auto 10 |].
  destruct IH as (B & G & PT & R & PF & W).
  rewrite B, G, PT, R, PF, W. auto 10.
Qed.




Lemma remaining_eq (p : pc) (k : nat) (rs : list bool) :
  remaining (mkCaller p k rs) =
  (4 * k + match p with
           | Idle => 0
           | Locked => 3
           | Refilled => 2
           | Returning _ => 1
           end)%nat.
Proof. reflexivity. Qed.

Lemma step_remaining (i : nat) (s s' : system) :
  step i s = Some s' ->
  (sum_list_with remaining (callers s')
   < sum_list_with remaining (callers s))%nat.
Proof.
  intros Hstep. unfold step in Hstep.
  destruct (callers s !! i) as [c |] eqn:Hi; [| discriminate].
  destruct c as [p k rs]. cbn [at_pc calls_left results] in Hstep.
  destruct p as [| | | b].
  - destruct k as [| k]; [discriminate |].
    destruct (mtx (bucket s)); [discriminate |].
    inversion Hstep; subst s'; cbn [callers].
    pose proof (sum_list_with_insert remaining _ _ _
                  (mkCaller Locked k rs) Hi) as E.
    rewrite !remaining_eq in E. lia.
  - inversion Hstep; subst s'; cbn [callers].
    pose proof (sum_list_with_insert remaining _ _ _
                  (mkCaller Refilled k rs) Hi) as E.
    rewrite !remaining_eq in E. lia.
  - destruct (ge (tokens (bucket s)) one);
      inversion Hstep; subst s'; cbn [callers].
    + pose proof (sum_list_with_insert remaining _ _ _
                    (mkCaller (Returning true) k rs) Hi) as E.
      rewrite !remaining_eq in E. lia.
    + pose proof (sum_list_with_insert remaining _ _ _
                    (mkCaller (Returning false) k rs) Hi) as E.
      rewrite !remaining_eq in E. lia.
  - inversion Hstep; subst s'; cbn [callers].
    pose proof (sum_list_with_insert remaining _ _ _
                  (mkCaller Idle k (rs ++ [b])) Hi) as E.
    rewrite !remaining_eq in E. lia.
Qed.

Lemma sum_list_with_pos {A : Type} (f : A -> nat) (l : list A) :
  (0 < sum_list_with f l)%nat ->
  exists (i : nat) (c : A), l !! i = Some c /\ (0 < f c)%nat.
Proof.
  induction l as [| a l IH]; cbn [sum_list_with]; intros H; [lia |].
  destruct (Nat.eq_dec (f a) 0%nat) as [Hz | Hnz].
  - destruct IH as (i & c & Hi & Hc); [lia |]. exists (S i), c. auto.
  - exists 0%nat, a. split; [reflexivity | lia].
Qed.

Lemma unfinished_caller (l : list caller) :
  forallb finished l = false ->
  exists (i : nat) (c : caller), l !! i = Some c /\ finished c = false.
Proof.
  induction l as [| a l IH]; cbn [forallb]; intros H; [discriminate |].
  destruct (finished a) eqn:Ha.
  - destruct (IH H) as (i & c & Hi & Hc). exists (S i), c. auto.
  - exists 0%nat, a. auto.
Qed.

Lemma sum_list_with_zero {A : Type} (f : A -> nat) (l : list A) (i : nat)
    (c : A) :
  sum_list_with f l = 0%nat -> l !! i = Some c -> f c = 0%nat.
Proof.
  revert i. induction l as [| a l IH]; intros i Hs Hi; [discriminate |].
  cbn [sum_list_with] in Hs. destruct i as [| i].
  - injection Hi as ->. lia.
  - apply (IH i); [lia | exact Hi].
Qed.



End Interleaving.


(** ** The theorems at concrete buckets *)

(** Refill of a bucket (10 per second, capacity 5) emptied by two calls,
    100 ms later. *)
Lemma refillBucket_is_capped_refill_witness :
  let tb := snd (Allow_n 2 0 (NewTokenBucket 0 10 Second 5)) in
  max_tokens tb <> NaN /\
  same (tokens (refillBucket 100000000 tb))
       (fmin (max_tokens tb)
             (add (tokens tb) (mul (elapsed 100000000 tb) (rate tb)))) /\
  same (tokens (refillBucket 100000000 tb)) (Fin 4).
Proof.
  intros tb.
  assert (H : max_tokens tb <> NaN) by (vm_compute; discriminate).
  split; [exact H |]. split.
  - exact (proj1 (refillBucket_is_capped_refill 100000000 tb H)).
  - vm_compute. reflexivity.
Defined.

Lemma Allow_takes_one_or_nothing_witness :
  let tb := NewTokenBucket 0 10 Second 1 in
  fst (Allow 0 tb) = ge (tokens (refillBucket 0 (Lock tb))) one /\
  fst (Allow 0 tb) = true /\
  fst (Allow 0 (snd (Allow 0 tb))) = false.
Proof.
  intros tb. split.
  - exact (proj1 (Allow_takes_one_or_nothing 0 tb)).
  - split; vm_compute; reflexivity.
Defined.


(** An empty bucket refilling at 10 per second: 1 token is needed, that is
    100 ms. *)
Lemma Wait_attempt_suspends_unlocked_witness :
  let tb := snd (Allow 0 (NewTokenBucket 0 10 Second 1)) in
  let r := refillBucket 0 (Lock tb) in
  gt one (tokens r) = true /\
  Wait_attempt 0 tb =
    Suspend (sub one (tokens r))
            (Duration_of_float64
               (mul (div (sub one (tokens r)) (rate tb)) (of_int Second)))
            (Unlock r) /\
  Duration_of_float64
    (mul (div (sub one (tokens r)) (rate tb)) (of_int Second))
  = Some (100 * Millisecond).
Proof.
  intros tb r.
  assert (H : gt one (tokens r) = true) by (vm_compute; reflexivity).
  split; [exact H |]. split.
  - exact (proj1 (Wait_attempt_suspends_unlocked 0 tb H)).
  - vm_compute. reflexivity.
Defined.

(** A full bucket and a context that is already cancelled. *)
Lemma Wait_takes_token_before_ctx_witness :
  let tb := NewTokenBucket 0 10 Second 1 in
  let r := refillBucket 0 (Lock tb) in
  ge (tokens r) one = true /\
  Wait [(0, CtxDone Canceled)] tb = (Returned None, Unlock (take_token r)).
Proof.
  intros tb r.
  assert (H : ge (tokens r) one = true) by (vm_compute; reflexivity).
  split; [exact H |].
  exact (proj1 (Wait_takes_token_before_ctx 0 (CtxDone Canceled) [] tb H)).
Defined.

(** One token per 10 s, bucket emptied; the timer fires once after 5 s and
    the deadline is reached at 8 s. *)
Lemma Wait_cancelled_takes_nothing_witness :
  let tb := snd (Allow 0 (NewTokenBucket 0 1 (10 * Second) 1)) in
  let pre := [(0, TimeAfter); (5 * Second, TimeAfter)] in
  forallb timer_fired pre = true /\
  starved (map fst pre ++ [8 * Second]) tb = true /\
  Wait (pre ++ [(8 * Second, CtxDone DeadlineExceeded)]) tb =
    (Returned (Some DeadlineExceeded),
     refill_all (map fst pre ++ [8 * Second]) tb).
Proof.
  intros tb pre.
  assert (H1 : forallb timer_fired pre = true) by reflexivity.
  assert (H2 : starved (map fst pre ++ [8 * Second]) tb = true)
    by (vm_compute; reflexivity).
  split; [exact H1 |]. split; [exact H2 |].
  exact (proj1 (Wait_cancelled_takes_nothing pre [] (8 * Second)
                  DeadlineExceeded tb H1 H2)).
Defined.


Lemma NewTokenBucket_rate_by_sign_witness :
  0 < 10 /\ 0 < Second /\
  exists q, rate (NewTokenBucket 0 10 Second 5) = Fin q /\ (0 < q)%Q.
Proof.
  assert (H1 : 0 < 10) by reflexivity.
  assert (H2 : 0 < Second) by reflexivity.
  split; [exact H1 |]. split; [exact H2 |].
  exact (proj1 (proj2 (proj2 (NewTokenBucket_rate_by_sign 0 10 Second 5)))
           H1 H2).
Defined.

Lemma tokens_always_in_range_witness :
  let tb := snd (Wait [(4, TimeAfter); (9, CtxDone Canceled)]
                   (snd (Allow 3 (NewTokenBucket 0 10 Second 1)))) in
  reachable tb /\ tokens_in_range tb = true.
Proof.
  intros tb.
  assert (H : reachable tb).
  { apply reach_Wait.
    - apply reach_Allow; [apply reach_New; reflexivity | discriminate].
    - vm_compute. repeat split; discriminate. }
  split; [exact H | exact (proj1 (tokens_always_in_range tb H))].
Defined.


(** * Further properties of the bucket *)

(** ** The rate bound *)

Section Budget.

Local Open Scope Q_scope.

(** [Allow] and an iteration of [Wait] run the same locked steps. *)
Lemma perform_eq (a : access) (tb : TokenBucket) :
  perform a tb =
  let r := refillBucket (access_time a) (Lock tb) in
  if ge (tokens r) one then (true, Unlock (take_token r))
  else (false, Unlock r).
Proof.
  destruct a as [now | now]; cbn [perform access_time]; cbv zeta.
  - unfold Allow. cbv zeta. reflexivity.
  - unfold Wait_attempt. cbv zeta.
    destruct (ge (tokens (refillBucket now (Lock tb))) one); reflexivity.
Qed.











End Budget.


(** ** Bursts *)

Section Burst.

Local Open Scope Q_scope.









End Burst.


(** ** The suspension time of Wait *)

Section Suspension.

Local Open Scope Q_scope.






End Suspension.



(** ** The success path of Wait *)

(** X5: [Wait] returns nil exactly when some iteration, reached through
    iterations that found no whole token and took the timer branch, finds
    one; the bucket it leaves is then the refilled bucket of that iteration
    with exactly one token taken and the lock released. *)
Theorem Wait_nil_takes_exactly_one (script : list (Time * select_case))
    (tb tb' : TokenBucket) :
  Wait script tb = (Returned None, tb') <->
  exists (pre post : list (Time * select_case)) (now : Time)
         (sel : select_case),
    script = pre ++ (now, sel) :: post /\
    forallb timer_fired pre = true /\
    starved (map fst pre) tb = true /\
    let r := refillBucket now (Lock (refill_all (map fst pre) tb)) in
    ge (tokens r) one = true /\ tb' = Unlock (take_token r).
Proof.
  split.
  - revert tb. induction script as [| [now sel] script IH]; intros tb H;
      [discriminate |].
    cbn [Wait] in H. unfold Wait_attempt in H. cbv zeta in H.
    destruct (ge (tokens (refillBucket now (Lock tb))) one) eqn:Hge.
    + injection H as <-. exists [], script, now, sel. cbn. auto.
    + destruct sel as [| err]; [| discriminate].
      destruct (IH _ H) as (pre & post & now1 & sel1 & -> & Hp & Hs & Hr).
      exists ((now, TimeAfter) :: pre), post, now1, sel1.
      cbn [app map fst forallb timer_fired snd starved refill_all].
      rewrite Hge, Hp, Hs. cbn [negb andb]. auto.
  - intros (pre & post & now & sel & -> & Hp & Hs & Hge & ->).
    rewrite (Wait_timer_only pre _ tb Hp Hs).
    cbn [Wait]. unfold Wait_attempt. cbv zeta. rewrite Hge. reflexivity.
Qed.

(** ** What no access changes *)

Lemma perform_fields (a : access) (tb : TokenBucket) :
  rate (snd (perform a tb)) = rate tb /\
  max_tokens (snd (perform a tb)) = max_tokens tb /\
  mtx (snd (perform a tb)) = false /\
  lastUpdated (snd (perform a tb)) = access_time a.
Proof.
  rewrite perform_eq. cbv zeta.
  destruct (refillBucket_fields (access_time a) (Lock tb)) as (_ & Hr & Hm & Hl).
  destruct (ge (tokens (refillBucket (access_time a) (Lock tb))) one);
    cbn; auto.
Qed.

Lemma history_snoc (accs : list access) (a : access) (tb : TokenBucket) :
  history (accs ++ [a]) tb =
  (fst (history accs tb) ++ [fst (perform a (snd (history accs tb)))],
   snd (perform a (snd (history accs tb)))).
Proof.
  revert tb. induction accs as [| x accs IH]; intros tb;
    cbn [app history fst snd].
  - destruct (perform a tb); reflexivity.
  - destruct (perform x tb) as [b tb1]. rewrite IH.
    destruct (history accs tb1); reflexivity.
Qed.

(** X6: no history of [Allow] calls and [Wait] iterations, and no call of
    [Wait], changes the rate or the capacity of the bucket; after at least
    one access the lock is free and the bucket carries the clock reading of
    the last access. *)
Theorem rate_and_capacity_never_change (tb : TokenBucket) :
  (forall accs : list access,
      rate (snd (history accs tb)) = rate tb /\
      max_tokens (snd (history accs tb)) = max_tokens tb /\
      (accs <> [] ->
       mtx (snd (history accs tb)) = false /\
       lastUpdated (snd (history accs tb))
       = List.last (map access_time accs) (lastUpdated tb))) /\
  (forall script : list (Time * select_case),
      rate (snd (Wait script tb)) = rate tb /\
      max_tokens (snd (Wait script tb)) = max_tokens tb /\
      (script <> [] -> mtx (snd (Wait script tb)) = false)).
Proof.
  split.
  - intros accs. induction accs as [| a accs IH] using rev_ind.
    + cbn. repeat split; auto. congruence.
    + destruct IH as (Hr & Hm & _).
      rewrite history_snoc. cbn [snd].
      destruct (perform_fields a (snd (history accs tb))) as (Hr1 & Hm1 & Hx1 & Hl1).
      rewrite Hr1, Hm1, Hr, Hm. repeat split; auto.
      rewrite Hl1, map_app. cbn [map]. symmetry. apply last_last.
  - intros script. revert tb.
    induction script as [| [now sel] script IH]; intros tb.
    + cbn. repeat split; auto. congruence.
    + cbn [Wait]. unfold Wait_attempt. cbv zeta.
      destruct (refillBucket_fields now (Lock tb)) as (_ & Hr & Hm & _).
      cbn [Lock set_mtx rate max_tokens] in Hr, Hm.
      destruct (ge (tokens (refillBucket now (Lock tb))) one).
      * cbn [snd Unlock take_token set_mtx set_tokens rate max_tokens mtx].
        rewrite Hr, Hm. auto.
      * destruct sel as [| err].
        -- destruct (IH (Unlock (refillBucket now (Lock tb)))) as (Hr1 & Hm1 & Hx1).
           rewrite Hr1, Hm1. cbn [Unlock set_mtx rate max_tokens].
           rewrite Hr, Hm. repeat split; auto. intros _.
           destruct script as [| p script]; [reflexivity |].
           apply Hx1. discriminate.
        -- cbn [snd Unlock take_token set_mtx set_tokens rate max_tokens mtx].
           rewrite Hr, Hm. auto.
Qed.

(** ** Buckets that refuse for ever *)

Lemma perform_NaN (a : access) (tb : TokenBucket) :
  tokens tb = NaN ->
  fst (perform a tb) = false /\ tokens (snd (perform a tb)) = NaN.
Proof.
  intros H. rewrite perform_eq. cbv zeta.
  pose proof (refillBucket_tokens (access_time a) (Lock tb)) as E.
  cbv zeta in E. cbn [Lock set_mtx tokens max_tokens rate] in E.
  rewrite H in E. cbn [add gt] in E.
  rewrite E. cbn [ge fst snd Unlock set_mtx tokens]. split; [reflexivity |].
  exact E.
Qed.

Lemma history_NaN (accs : list access) (tb : TokenBucket) :
  tokens tb = NaN ->
  fst (history accs tb) = replicate (length accs) false /\
  tokens (snd (history accs tb)) = NaN.
Proof.
  revert tb. induction accs as [| a accs IH]; intros tb H; [auto |].
  destruct (perform_NaN a tb H) as [Hb H1]. cbn [history].
  destruct (perform a tb) as [b tb1]. cbn [fst snd] in Hb, H1. subst b.
  destruct (IH tb1 H1) as [Hbs H2].
  destruct (history accs tb1) as [bs tb2]. cbn [fst snd] in Hbs, H2 |- *.
  rewrite Hbs. auto.
Qed.

(** X7: a token count that has become NaN stays NaN: every later [Allow]
    returns false and no iteration of [Wait] finds a token, whatever the
    clock readings, so that [Wait] never returns nil. *)
Theorem NaN_tokens_refuse_for_ever (tb : TokenBucket) :
  tokens tb = NaN ->
  (forall accs : list access,
      fst (history accs tb) = replicate (length accs) false /\
      tokens (snd (history accs tb)) = NaN) /\
  (forall script : list (Time * select_case),
      fst (Wait script tb) <> Returned None /\
      tokens (snd (Wait script tb)) = NaN).
Proof.
  intros H. split; [intros accs; now apply history_NaN |].
  intros script. revert tb H.
  induction script as [| [now sel] script IH]; intros tb H.
  - cbn. split; [discriminate | exact H].
  - destruct (perform_NaN (DoWait now) tb H) as [Hb H1].
    cbn [perform] in Hb, H1. cbn [Wait].
    destruct (Wait_attempt now tb) as [tb1 | n d tb1];
      cbn [fst snd] in Hb, H1; [discriminate |].
    destruct sel as [| err]; [now apply IH |].
    cbn. split; [discriminate | exact H1].
Qed.

Lemma perform_poisons (a : access) (tb : TokenBucket) :
  is_finite (rate tb) = false -> lastUpdated tb = access_time a ->
  fst (perform a tb) = false /\ tokens (snd (perform a tb)) = NaN.
Proof.
  intros Hr Hl. rewrite perform_eq. cbv zeta.
  pose proof (refillBucket_tokens (access_time a) (Lock tb)) as E.
  cbv zeta in E. unfold elapsed in E.
  cbn [Lock set_mtx tokens max_tokens rate lastUpdated] in E.
  rewrite Hl, Sub_diag, Seconds_zero in E.
  assert (Hm : mul (Fin (0 + 0 / (1000000000 # 1))) (rate tb) = NaN)
    by (destruct (rate tb); [discriminate | reflexivity ..]).
  rewrite Hm in E.
  assert (Ha : add (tokens tb) NaN = NaN) by (destruct (tokens tb); reflexivity).
  rewrite Ha in E. cbn [gt] in E.
  rewrite E. cbn [ge fst snd Unlock set_mtx tokens]. split; [reflexivity |].
  exact E.
Qed.

(** X8: a bucket built with a zero period, whatever the other arguments,
    refuses the access that reads the clock value of the construction, and
    every access after it: its rate is not finite, zero seconds times that
    rate is NaN, and NaN stays. *)
Theorem zero_period_bucket_locks_up (t0 : Time) (maxOps C : Z) (a : access)
    (accs : list access) :
  access_time a = t0 ->
  fst (history (a :: accs) (NewTokenBucket t0 maxOps 0 C))
  = replicate (S (length accs)) false /\
  tokens (snd (history (a :: accs) (NewTokenBucket t0 maxOps 0 C))) = NaN.
Proof.
  intros Ha.
  assert (Hr : is_finite (rate (NewTokenBucket t0 maxOps 0 C)) = false).
  { rewrite NewTokenBucket_rate_zero_period.
    destruct (maxOps ?= 0); reflexivity. }
  destruct (perform_poisons a (NewTokenBucket t0 maxOps 0 C) Hr) as [Hb H1];
    [now rewrite Ha |].
  cbn [history].
  destruct (perform a (NewTokenBucket t0 maxOps 0 C)) as [b tb1].
  cbn [fst snd] in Hb, H1. subst b.
  destruct (history_NaN accs tb1 H1) as [Hbs H2].
  destruct (history accs tb1) as [bs tb2]. cbn [fst snd] in Hbs, H2 |- *.
  rewrite Hbs. auto.
Qed.

(** ** Interleavings with time passing *)

Section Exclusion.

Lemma step_exclusive (i : nat) (s s' : system) :
  exclusive s -> step i s = Some s' -> exclusive s'.
Proof.
  unfold exclusive. intros Hbusy Hstep. unfold step in Hstep.
  destruct (callers s !! i) as [c |] eqn:Hi; [| discriminate].
  destruct c as [p k rs]. cbn [at_pc calls_left results] in Hstep.
  destruct p as [| | | b].
  - destruct k as [| k]; [discriminate |].
    destruct (mtx (bucket s)) eqn:Hm; [discriminate |].
    inversion Hstep; subst s'; clear Hstep. cbn [bucket callers].
    pose proof (sum_list_with_insert busy _ _ _ (mkCaller Locked k rs) Hi) as B.
    cbn [busy at_pc] in B. cbn [Lock set_mtx mtx]. lia.
  - inversion Hstep; subst s'; clear Hstep. cbn [bucket callers].
    pose proof (sum_list_with_insert busy _ _ _ (mkCaller Refilled k rs) Hi) as B.
    cbn [busy at_pc] in B.
    destruct (refillBucket_fields (clock s) (bucket s)) as (Hm & _).
    rewrite Hm. lia.
  - destruct (ge (tokens (bucket s)) one);
      inversion Hstep; subst s'; clear Hstep; cbn [bucket callers].
    + pose proof (sum_list_with_insert busy _ _ _
                    (mkCaller (Returning true) k rs) Hi) as B.
      cbn [busy at_pc] in B. cbn [take_token set_tokens mtx]. lia.
    + pose proof (sum_list_with_insert busy _ _ _
                    (mkCaller (Returning false) k rs) Hi) as B.
      cbn [busy at_pc] in B. lia.
  - inversion Hstep; subst s'; clear Hstep. cbn [bucket callers].
    pose proof (sum_list_with_insert busy _ _ _
                  (mkCaller Idle k (rs ++ [b])) Hi) as B.
    cbn [busy at_pc] in B. cbn [Unlock set_mtx mtx].
    destruct (mtx (bucket s)); lia.
Qed.

Lemma run_exclusive (sched : list event) (s s' : system) :
  exclusive s -> run sched s = Some s' -> exclusive s'.
Proof.
  revert s. induction sched as [| e sched IH]; intros s H Hrun.
  - inversion Hrun. now subst s'.
  - cbn [run] in Hrun.
    destruct (step_event e s) as [s1 |] eqn:Hstep; [| discriminate].
    apply (IH s1); [| exact Hrun].
    destruct e as [i | d]; cbn [step_event] in Hstep.
    + now apply (step_exclusive i s).
    + destruct (0 <=? d); [| discriminate].
      inversion Hstep; subst s1. exact H.
Qed.

Lemma sum_list_with_two {A : Type} (f : A -> nat) (l : list A) (i j : nat)
    (a b : A) :
  i <> j -> l !! i = Some a -> l !! j = Some b ->
  (f a + f b <= sum_list_with f l)%nat.
Proof.
  revert i j. induction l as [| x l IH]; intros i j Hij Hi Hj; [discriminate |].
  cbn [sum_list_with].
  destruct i as [| i], j as [| j]; try congruence.
  - injection Hi as ->.
    assert (f b <= sum_list_with f l)%nat.
    { clear IH Hij. revert j Hj. induction l as [| y l IHl]; intros j Hj;
        [discriminate |].
      cbn [sum_list_with]. destruct j as [| j].
      - injection Hj as ->. lia.
      - specialize (IHl j Hj). lia. }
    lia.
  - injection Hj as ->.
    assert (f a <= sum_list_with f l)%nat.
    { clear IH Hij. revert i Hi. induction l as [| y l IHl]; intros i Hi;
        [discriminate |].
      cbn [sum_list_with]. destruct i as [| i].
      - injection Hi as ->. lia.
      - specialize (IHl i Hi). lia. }
    lia.
  - assert (Hne : i <> j) by congruence.
    specialize (IH i j Hne Hi Hj). lia.
Qed.

End Exclusion.

(** X9: in every interleaving of callers of [Allow], with or without time
    passing, at most one caller is between [Lock] and the deferred
    [Unlock], and the mutex is held exactly when there is one: the lock is
    never leaked and never shared. *)
Theorem Allow_is_mutually_exclusive (now : Time) (maxOps : Z) (per : Duration)
    (C : Z) (ks : list nat) (sched : list event) (s' : system) :
  run sched (start now maxOps per C ks) = Some s' ->
  sum_list_with busy (callers s') = (if mtx (bucket s') then 1 else 0)%nat /\
  (forall (i j : nat) (ci cj : caller),
      callers s' !! i = Some ci -> callers s' !! j = Some cj ->
      at_pc ci <> Idle -> at_pc cj <> Idle -> i = j).
Proof.
  intros Hrun.
  assert (H0 : exclusive (start now maxOps per C ks)).
  { unfold exclusive, start. cbn [bucket callers NewTokenBucket mtx].
    now destruct (fresh_callers_counters ks) as (B & _). }
  pose proof (run_exclusive _ _ _ H0 Hrun) as H. unfold exclusive in H.
  split; [exact H |].
  intros i j ci cj Hi Hj Hci Hcj.
  destruct (Nat.eq_dec i j) as [E | Hne]; [exact E | exfalso].
  pose proof (sum_list_with_two busy _ _ _ _ _ Hne Hi Hj) as Hs.
  assert (busy ci = 1%nat) by (unfold busy; destruct (at_pc ci); congruence).
  assert (busy cj = 1%nat) by (unfold busy; destruct (at_pc cj); congruence).
  destruct (mtx (bucket s')); lia.
Qed.

Section SharedBudget.

Local Open Scope Q_scope.





End SharedBudget.


(** ** How the token count moves *)

Section Movement.

Local Open Scope Q_scope.



End Movement.



(** ** Progress of interleaved callers *)

Lemma exclusive_progress (s : system) :
  exclusive s -> forallb finished (callers s) = false ->
  exists (i : nat) (s' : system), step i s = Some s'.
Proof.
  unfold exclusive. intros Hbusy Hfin.
  destruct (mtx (bucket s)) eqn:Hm.
  - destruct (sum_list_with_pos busy (callers s)) as (i & c & Hi & Hc);
      [lia |].
    exists i. unfold step. rewrite Hi.
    destruct c as [p k rs]. unfold busy in Hc. cbn in Hc |- *.
    destruct p; [lia | eauto | | eauto].
    destruct (ge (tokens (bucket s)) one); eauto.
  - destruct (unfinished_caller _ Hfin) as (i & c & Hi & Hc).
    pose proof (sum_list_with_zero busy _ _ _ Hbusy Hi) as Hidle.
    exists i. unfold step. rewrite Hi, Hm.
    destruct c as [p k rs]. unfold busy in Hidle. unfold finished in Hc.
    cbn in Hidle, Hc |- *.
    destruct p; try discriminate. destruct k; [discriminate | eauto].
Qed.

Lemma run_remaining (sched : list event) (s s' : system) :
  run sched s = Some s' ->
  (sum_list_with remaining (callers s')
   + length (filter (fun e => is_Run e = true) sched)
   <= sum_list_with remaining (callers s))%nat.
Proof.
  revert s. induction sched as [| e sched IH]; intros s Hrun.
  - inversion Hrun. subst s'. cbn. lia.
  - cbn [run] in Hrun.
    destruct (step_event e s) as [s1 |] eqn:Hstep; [| discriminate].
    specialize (IH s1 Hrun).
    destruct e as [i | d]; cbn [step_event] in Hstep.
    + pose proof (step_remaining _ _ _ Hstep) as Hlt.
      rewrite filter_cons_True by reflexivity. cbn [length]. lia.
    + destruct (0 <=? d); [| discriminate]. inversion Hstep; subst s1.
      rewrite filter_cons_False by (cbn; discriminate).
      cbn [callers] in IH. exact IH.
Qed.

(** X13: callers of [Allow] never deadlock and never loop: in every
    interleaving, with or without time passing, as long as some caller has
    not finished its calls some caller can take a step, and the callers
    take at most four steps for each call. *)
Theorem Allow_callers_always_progress (now : Time) (maxOps : Z)
    (per : Duration) (C : Z) (ks : list nat) (sched : list event)
    (s' : system) :
  run sched (start now maxOps per C ks) = Some s' ->
  (forallb finished (callers s') = false ->
   exists (i : nat) (s'' : system), step i s' = Some s'') /\
  (length (filter (fun e => is_Run e = true) sched) <= 4 * sum_list ks)%nat.
Proof.
  intros Hrun. split.
  - apply exclusive_progress.
    apply (run_exclusive sched (start now maxOps per C ks)); [| exact Hrun].
    unfold exclusive, start. cbn [bucket callers NewTokenBucket mtx].
    now destruct (fresh_callers_counters ks) as (B & _).
  - pose proof (run_remaining _ _ _ Hrun) as H.
    assert (E : sum_list_with remaining (callers (start now maxOps per C ks))
                = (4 * sum_list ks)%nat).
    { unfold start. cbn [callers]. clear.
      induction ks as [| k ks IH]; [reflexivity |].
      cbn [map sum_list_with]. rewrite IH, remaining_eq. cbv beta iota.
      unfold id. lia. }
    lia.
Qed.

(** ** A bucket that never refills *)


(** ** The further properties at concrete buckets *)





(** A bucket poisoned by a zero period. *)
Lemma NaN_tokens_refuse_for_ever_witness :
  let tb := snd (Allow 0 (NewTokenBucket 0 1 0 1)) in
  tokens tb = NaN /\
  fst (history [DoAllow 5; DoWait 9] tb) = replicate 2 false /\
  fst (Wait [(7, TimeAfter); (8, CtxDone Canceled)] tb) <> Returned None.
Proof.
  intros tb.
  assert (H : tokens tb = NaN) by reflexivity.
  split; [exact H |]. split.
  - exact (proj1 (proj1 (NaN_tokens_refuse_for_ever tb H)
                    [DoAllow 5; DoWait 9])).
  - exact (proj1 (proj2 (NaN_tokens_refuse_for_ever tb H)
                    [(7, TimeAfter); (8, CtxDone Canceled)])).
Defined.

Lemma zero_period_bucket_locks_up_witness :
  access_time (DoAllow 4) = 4 /\
  fst (history [DoAllow 4; DoAllow 5; DoWait 6] (NewTokenBucket 4 10 0 3))
  = [false; false; false].
Proof.
  assert (H : access_time (DoAllow 4) = 4) by reflexivity.
  split; [exact H |].
  exact (proj1 (zero_period_bucket_locks_up 4 10 3 (DoAllow 4)
                  [DoAllow 5; DoWait 6] H)).
Defined.

(** Two callers, the clock advancing while the first one holds the lock. *)
Lemma Allow_is_mutually_exclusive_witness :
  let sched := [Run 0%nat; Tick 5; Run 0%nat; Run 0%nat] in
  exists s',
    run sched (start 0 10 Second 3 [1; 1]%nat) = Some s' /\
    mtx (bucket s') = true /\
    sum_list_with busy (callers s') = 1%nat.
Proof.
  intros sched. eexists.
  split; [vm_compute; reflexivity |].
  split; [reflexivity |].
  refine (proj1 (Allow_is_mutually_exclusive 0 10 Second 3 [1; 1]%nat sched _ _)).
  vm_compute; reflexivity.
Defined.




Lemma Allow_callers_always_progress_witness :
  let sched := [Run 0%nat; Tick 5; Run 0%nat] in
  exists s',
    run sched (start 0 10 Second 3 [1; 1]%nat) = Some s' /\
    forallb finished (callers s') = false /\
    exists (i : nat) (s'' : system), step i s' = Some s''.
Proof.
  intros sched. eexists.
  split; [vm_compute; reflexivity |].
  split; [vm_compute; reflexivity |].
  refine (proj1 (Allow_callers_always_progress 0 10 Second 3 [1; 1]%nat
                   sched _ _) _); vm_compute; reflexivity.
Defined.

